(** * Othello rules engine and search engine (game.js, ai.js)

    A shallow embedding of the board-scanning rules ([OthelloGame]) and of
    the evaluator and minimax search ([OthelloAI]).

    Numbers.  Every number the core handles is a small integer (cell codes,
    coordinates, counts, weights, scores) or one of the two infinities that
    bound the search window; integers are [Z], the search window uses [num].

    Boards.  A board is a JavaScript array of eight row arrays.  The
    read-only code (flip scanning, enumeration, evaluation) is embedded
    over the contents of the board, a [list (list Z)].  The code that writes
    ([makeMove], [makeTestMove], [copyBoard]) is embedded twice: over a
    store of row arrays, where writing through a reference is visible to
    everyone holding it (module [Store]), and over contents (modules [Game]
    and [AI]); [Store] lemmas connect the two. *)

From stdpp Require Import base option list list_numbers gmap.
From Stdlib Require Import ZArith Lia.

Local Open Scope Z_scope.

(** ** Shared constants and board access *)

Definition BOARD_SIZE : Z := 8.
Definition EMPTY : Z := 0.
Definition BLACK : Z := 1.
Definition WHITE : Z := 2.

Abbreviation Board := (list (list Z)).

(** [array.length] as a number. *)
Definition len {A} (l : list A) : Z := Z.of_nat (length l).

(** [board[r][c]]; [None] stands for JavaScript's [undefined] of a read
    outside a row (a read outside the outer array throws in JavaScript; the
    scanning code guards every such read with [isValidPosition]). *)
Definition cell (b : Board) (r c : Z) : option Z :=
  if (0 <=? r) && (0 <=? c)
  then b !! Z.to_nat r ≫= λ line, line !! Z.to_nat c
  else None.

(** [board[r][c] === v] *)
Definition cell_is (b : Board) (r c v : Z) : bool :=
  match cell b r c with
  | Some x => x =? v
  | None => false
  end.

(** [board[r][c] = v] on the contents, for a cell of the board.  Outside
    the board JavaScript throws (no such row) or grows the row (no such
    column); the model leaves the board as it is there.  [makeMove] writes
    only cells it has read, and the search hands [makeTestMove] the moves it
    has enumerated. *)
Definition set_cell (b : Board) (r c v : Z) : Board :=
  if (0 <=? r) && (0 <=? c)
  then alter (λ line, <[Z.to_nat c := v]> line) (Z.to_nat r) b
  else b.

(** The counters of the two nested [for] loops, [0 .. BOARD_SIZE-1]. *)
Definition indices : list Z := seqZ 0 BOARD_SIZE.

(** The [while] loops of the scanners move one step along a direction while
    they stay on the board, so they end within [BOARD_SIZE] iterations; one
    more unit pays for the test that ends the loop. *)
Definition scan_fuel : nat := S (Z.to_nat BOARD_SIZE).

Record Move := mkMove { row : Z; col : Z; flips : Z }.

(** Eight rows of eight cells. *)
Definition wf_board (b : Board) : Prop :=
  length b = 8%nat ∧ Forall (λ line, length line = 8%nat) b.

Definition is_side (player : Z) : Prop := player = BLACK ∨ player = WHITE.

(** ** game.js: class OthelloGame *)

Module Game.

Definition directions : list (Z * Z) :=
  [(-1, 0); (-1, 1); (0, 1); (1, 1); (1, 0); (1, -1); (0, -1); (-1, -1)].

Definition isValidPosition (row col : Z) : bool :=
  (0 <=? row) && (row <? BOARD_SIZE) && (0 <=? col) && (col <? BOARD_SIZE).

(** The [while] loop of [getFlips]: returns [temp], [r] and [c] as the
    loop leaves them. *)
Fixpoint scan (fuel : nat) (b : Board) (opponent dr dc r c : Z)
    (temp : list (Z * Z)) : list (Z * Z) * Z * Z :=
  match fuel with
  | O => (temp, r, c)
  | S fuel' =>
      if isValidPosition r c && cell_is b r c opponent
      then scan fuel' b opponent dr dc (r + dr) (c + dc) (temp ++ [(r, c)])
      else (temp, r, c)
  end.

(** [getFlips(row, col, player)], reading [this.board]. *)
Definition getFlips (b : Board) (row col player : Z) : list (Z * Z) :=
  if negb (cell_is b row col EMPTY) then [] else
  let opponent := if player =? BLACK then WHITE else BLACK in
  foldl (λ flips '(dr, dc),
           let '(temp, r, c) :=
             scan scan_fuel b opponent dr dc (row + dr) (col + dc) [] in
           if isValidPosition r c && cell_is b r c player && (0 <? len temp)
           then flips ++ temp
           else flips)
        [] directions.

(** [getValidMoves(player)], reading [this.board]. *)
Definition getValidMoves (b : Board) (player : Z) : list Move :=
  foldl (λ moves row,
    foldl (λ moves col,
      if cell_is b row col EMPTY then
        let flips := getFlips b row col player in
        if 0 <? len flips
        then moves ++ [mkMove row col (len flips)]
        else moves
      else moves) moves indices) [] indices.

(** [flips.forEach(([r, c]) => { this.board[r][c] = player; })] *)
Definition flipAll (b : Board) (flips : list (Z * Z)) (player : Z) : Board :=
  foldl (λ b '(r, c), set_cell b r c player) b flips.

(** [makeMove(row, col, player)] on the contents of [this.board]: the
    returned boolean and the contents afterwards.  The animation and
    rendering calls touch the page only. *)
Definition makeMove (b : Board) (row col player : Z) : bool * Board :=
  if negb (cell_is b row col EMPTY) then (false, b) else
  let flips := getFlips b row col player in
  if len flips =? 0 then (false, b) else
  (true, flipAll (set_cell b row col player) flips player).

(** [countStones()]: the pair [(black, white)]. *)
Definition countStones (b : Board) : Z * Z :=
  foldl (λ acc row,
    foldl (λ '(black, white) col,
      if cell_is b row col BLACK then (black + 1, white)
      else if cell_is b row col WHITE then (black, white + 1)
      else (black, white)) acc indices) (0, 0) indices.

(** The board [newGame] builds. *)
Definition newBoard : Board :=
  let b := replicate (Z.to_nat BOARD_SIZE) (replicate (Z.to_nat BOARD_SIZE) EMPTY) in
  let mid := BOARD_SIZE / 2 in
  let b := set_cell b (mid - 1) (mid - 1) WHITE in
  let b := set_cell b (mid - 1) mid BLACK in
  let b := set_cell b mid (mid - 1) BLACK in
  set_cell b mid mid WHITE.

(** [copyBoard()] on contents is the identity: [map (row => [...row])]. *)
Definition copyBoard (b : Board) : Board := (λ line, line) <$> b.

End Game.

(** ** ai.js: class OthelloAI *)

(** Scores: the integers [evaluateBoard] returns and the two infinities the
    search starts its window and its running extrema from. *)
Inductive num : Type :=
  | NegInf : num
  | Fin : Z → num
  | PosInf : num.

(** [x <= y] on numbers. *)
Definition num_le (x y : num) : bool :=
  match x, y with
  | NegInf, _ => true
  | _, PosInf => true
  | Fin a, Fin b => a <=? b
  | _, _ => false
  end.


(** [Math.max(x, y)] and [Math.min(x, y)]. *)
Definition num_max (x y : num) : num := if num_le x y then y else x.
Definition num_min (x y : num) : num := if num_le x y then x else y.

Module AI.

Definition positionWeights : list (list Z) :=
  [ [100; -20;  10;   5;   5;  10; -20; 100];
    [-20; -50;  -2;  -2;  -2;  -2; -50; -20];
    [ 10;  -2;   5;   1;   1;   5;  -2;  10];
    [  5;  -2;   1;   0;   0;   1;  -2;   5];
    [  5;  -2;   1;   0;   0;   1;  -2;   5];
    [ 10;  -2;   5;   1;   1;   5;  -2;  10];
    [-20; -50;  -2;  -2;  -2;  -2; -50; -20];
    [100; -20;  10;   5;   5;  10; -20; 100] ].

(** [this.positionWeights[row][col]], read inside the two loops only. *)
Definition weight (row col : Z) : Z := default 0 (cell positionWeights row col).


Definition directions : list (Z * Z) :=
  [(-1, 0); (-1, 1); (0, 1); (1, 1); (1, 0); (1, -1); (0, -1); (-1, -1)].

Definition isValidPosition (row col : Z) : bool :=
  (0 <=? row) && (row <? BOARD_SIZE) && (0 <=? col) && (col <? BOARD_SIZE).

(** The [while] loop of [getFlips]. *)
Fixpoint scan (fuel : nat) (b : Board) (opponent dr dc r c : Z)
    (temp : list (Z * Z)) : list (Z * Z) * Z * Z :=
  match fuel with
  | O => (temp, r, c)
  | S fuel' =>
      if isValidPosition r c && cell_is b r c opponent
      then scan fuel' b opponent dr dc (r + dr) (c + dc) (temp ++ [(r, c)])
      else (temp, r, c)
  end.

(** [getFlips(board, row, col, player)]: no test of the target cell. *)
Definition getFlips (b : Board) (row col player : Z) : list (Z * Z) :=
  let opponent := if player =? WHITE then BLACK else WHITE in
  foldl (λ flips '(dr, dc),
           let '(temp, r, c) :=
             scan scan_fuel b opponent dr dc (row + dr) (col + dc) [] in
           if isValidPosition r c && cell_is b r c player && (0 <? len temp)
           then flips ++ temp
           else flips)
        [] directions.

(** [getValidMovesForBoard(board, player, game)] *)
Definition getValidMovesForBoard (b : Board) (player : Z) : list Move :=
  foldl (λ moves row,
    foldl (λ moves col,
      if cell_is b row col EMPTY then
        let flips := getFlips b row col player in
        if 0 <? len flips
        then moves ++ [mkMove row col (len flips)]
        else moves
      else moves) moves indices) [] indices.

(** [makeTestMove(board, row, col, player, game)] on the contents of
    [board]: the contents afterwards.  The disc is placed first and the
    flips are computed on the board that already holds it. *)
Definition makeTestMove (b : Board) (row col player : Z) : Board :=
  let b := set_cell b row col player in
  let flips := getFlips b row col player in
  foldl (λ b '(r, c), set_cell b r c player) b flips.

(** [copyBoard(board)] on contents. *)
Definition copyBoard (b : Board) : Board := (λ line, line) <$> b.

(** The [while] loop of [canPlaceStone]. *)
Fixpoint scanOpponent (fuel : nat) (b : Board) (opponent dr dc r c : Z)
    (hasOpponent : bool) : bool * Z * Z :=
  match fuel with
  | O => (hasOpponent, r, c)
  | S fuel' =>
      if isValidPosition r c && cell_is b r c opponent
      then scanOpponent fuel' b opponent dr dc (r + dr) (c + dc) true
      else (hasOpponent, r, c)
  end.

(** [canPlaceStone(board, row, col, player)]; the [for] loop returns at
    the first direction that closes a run. *)
Definition canPlaceStone (b : Board) (row col player : Z) : bool :=
  if negb (cell_is b row col EMPTY) then false else
  let opponent := if player =? WHITE then BLACK else WHITE in
  existsb (λ '(dr, dc),
             let '(hasOpponent, r, c) :=
               scanOpponent scan_fuel b opponent dr dc (row + dr) (col + dc) false in
             hasOpponent && isValidPosition r c && cell_is b r c player)
          directions.

(** [countMobility(board, player)] *)
Definition countMobility (b : Board) (player : Z) : Z :=
  foldl (λ count row,
    foldl (λ count col,
      if cell_is b row col EMPTY then
        if canPlaceStone b row col player then count + 1 else count
      else count) count indices) 0 indices.

(** [gamePhase > 0.7] and [gamePhase < 0.7] for
    [gamePhase = totalStones / 64].  The quotient of an integer in
    [0..64] by 64 is exact in binary floating point and the double
    nearest to 0.7 lies strictly between 44/64 and 45/64, so both tests
    agree with the comparison of the fractions [totalStones/64] and
    [7/10]. *)
Definition phaseAbove (totalStones : Z) : bool :=
  7 * (BOARD_SIZE * BOARD_SIZE) <? 10 * totalStones.
Definition phaseBelow (totalStones : Z) : bool :=
  10 * totalStones <? 7 * (BOARD_SIZE * BOARD_SIZE).

Definition corners : list (Z * Z) := [(0, 0); (0, 7); (7, 0); (7, 7)].

(** The first pair of loops of [evaluateBoard]:
    [(score, playerStones, opponentStones)]. *)
Definition positional (b : Board) (player opponent : Z) : Z * Z * Z :=
  foldl (λ acc row,
    foldl (λ '(score, playerStones, opponentStones) col,
      if cell_is b row col player
      then (score + weight row col, playerStones + 1, opponentStones)
      else if cell_is b row col opponent
      then (score - weight row col, playerStones, opponentStones + 1)
      else (score, playerStones, opponentStones)) acc indices)
    (0, 0, 0) indices.

(** [evaluateBoard(board, player)] *)
Definition evaluateBoard (b : Board) (player : Z) : Z :=
  let opponent := if player =? WHITE then BLACK else WHITE in
  let '(score, playerStones, opponentStones) := positional b player opponent in
  let totalStones := playerStones + opponentStones in
  let score :=
    if phaseAbove totalStones
    then score + (playerStones - opponentStones) * 10 else score in
  let score :=
    if phaseBelow totalStones
    then score + (countMobility b player - countMobility b opponent) * 5
    else score in
  foldl (λ score '(row, col),
           if cell_is b row col player then score + 100
           else if cell_is b row col opponent then score - 100
           else score)
        score corners.

(** The [for] loop of a maximizing node.  [child move alpha] is the
    recursive call on the trial board of [move]. *)
Fixpoint maxLoop (child : Move → num → num) (moves : list Move)
    (maxScore alpha beta : num) : num :=
  match moves with
  | [] => maxScore
  | move :: rest =>
      let score := child move alpha in
      let maxScore := num_max maxScore score in
      let alpha := num_max alpha score in
      if num_le beta alpha then maxScore
      else maxLoop child rest maxScore alpha beta
  end.

(** The [for] loop of a minimizing node. *)
Fixpoint minLoop (child : Move → num → num) (moves : list Move)
    (minScore alpha beta : num) : num :=
  match moves with
  | [] => minScore
  | move :: rest =>
      let score := child move beta in
      let minScore := num_min minScore score in
      let beta := num_min beta score in
      if num_le beta alpha then minScore
      else minLoop child rest minScore alpha beta
  end.

(** [minimax(board, depth, maximizing, alpha, beta, player, game)].
    [depth] counts down to 0 from [maxDepth - 1]. *)
Fixpoint minimax (depth : nat) (b : Board) (maximizing : bool)
    (alpha beta : num) (player : Z) : num :=
  match depth with
  | O => Fin (evaluateBoard b player)
  | S depth' =>
      let currentPlayer :=
        if maximizing then player
        else (if player =? WHITE then BLACK else WHITE) in
      let validMoves := getValidMovesForBoard b currentPlayer in
      if len validMoves =? 0 then
        let opponent := if player =? WHITE then BLACK else WHITE in
        let opponentMoves := getValidMovesForBoard b opponent in
        if len opponentMoves =? 0 then Fin (evaluateBoard b player)
        else minimax depth' b (negb maximizing) alpha beta player
      else if maximizing then
        maxLoop (λ move alpha,
                   minimax depth'
                     (makeTestMove (copyBoard b) (row move) (col move) currentPlayer)
                     false alpha beta player)
                validMoves NegInf alpha beta
      else
        minLoop (λ move beta,
                   minimax depth'
                     (makeTestMove (copyBoard b) (row move) (col move) currentPlayer)
                     true alpha beta player)
                validMoves PosInf alpha beta
  end.




End AI.

(** ** Boards as shared objects

    Row arrays live in a store; a board is the outer array, the list of the
    references to its eight rows.  Writing [board[r][c] = v] changes the row
    array in the store, for every holder of a reference to it. *)

Module Store.

Abbreviation store := (gmap nat (list Z)).
Abbreviation boardRef := (list nat).

(** The contents seen through a board reference. *)
Definition contents (s : store) (board : boardRef) : Board :=
  (λ l, default [] (s !! l)) <$> board.

(** [board[r][c] = v], for a cell of the board (see [set_cell]). *)
Definition write (s : store) (board : boardRef) (r c v : Z) : store :=
  if (0 <=? r) && (0 <=? c) then
    match board !! Z.to_nat r with
    | Some l => alter (λ line, <[Z.to_nat c := v]> line) l s
    | None => s
    end
  else s.

(** [board.map(row => [...row])]: every row is copied, in turn, into a
    newly allocated array; the result is the new outer array. *)
Fixpoint copyBoard (s : store) (board : boardRef) : store * boardRef :=
  match board with
  | [] => (s, [])
  | l :: rest =>
      let l' := fresh (dom s) in
      let '(s', out) := copyBoard (<[l' := default [] (s !! l)]> s) rest in
      (s', l' :: out)
  end.

(** [OthelloGame.makeMove(row, col, player)] with [this.board = board]. *)
Definition makeMove (s : store) (board : boardRef) (row col player : Z)
    : bool * store :=
  if negb (cell_is (contents s board) row col EMPTY) then (false, s) else
  let flips := Game.getFlips (contents s board) row col player in
  if len flips =? 0 then (false, s) else
  let s := write s board row col player in
  (true, foldl (λ s '(r, c), write s board r c player) s flips).

(** [OthelloAI.makeTestMove(board, row, col, player, game)] *)
Definition makeTestMove (s : store) (board : boardRef) (row col player : Z)
    : store :=
  let s := write s board row col player in
  let flips := AI.getFlips (contents s board) row col player in
  foldl (λ s '(r, c), write s board r c player) s flips.

(** A store holding [b] in rows [0 .. length b - 1], and the board
    reference to it. *)
Definition alloc (b : Board) : store * boardRef :=
  (list_to_map (zip (seq 0 (length b)) b), seq 0 (length b)).

End Store.

(** ** Reference definitions

    The search without cutoffs, as the pruning-correctness property words
    it: a full-width minimax over the same row-major child order, the same
    leaves and the same treatment of a side without moves; every child of a
    node is searched and no window is passed down. *)

Module FullWidth.






End FullWidth.

(** All positions in row-major order, the order of the two nested loops. *)
Definition allPositions : list (Z * Z) :=
  r ← indices; (λ c, (r, c)) <$> indices.

(** The four cells [newGame] fills. *)
Definition centerCluster : list (Z * Z) := [(3, 3); (3, 4); (4, 3); (4, 4)].

(** One step along a diagonal. *)
Definition diagonallyAdjacent (p q : Z * Z) : bool :=
  (Z.abs (p.1 - q.1) =? 1) && (Z.abs (p.2 - q.2) =? 1).

(** [black + white] of [countStones]. *)
Definition totalStones (b : Board) : Z :=
  let '(black, white) := Game.countStones b in black + white.

(** A board with a black corner and a white disc beside it: Black can move
    (to row 0, column 2), White cannot. *)
Definition passBoard : Board :=
  set_cell (set_cell (replicate 8 (replicate 8 EMPTY)) 0 0 BLACK) 0 1 WHITE.

(** The body of the two loops of [getValidMoves], per position. *)
Definition moveAt (b : Board) (flipsOf : Z → Z → list (Z * Z)) (p : Z * Z) : option Move :=
  if cell_is b p.1 p.2 EMPTY then
    if 0 <? len (flipsOf p.1 p.2)
    then Some (mkMove p.1 p.2 (len (flipsOf p.1 p.2)))
    else None
  else None.

(** Whether [countStones] counts the cell at [p]: 1 for a disc, else 0. *)
Definition counted (b : Board) (p : Z * Z) : Z :=
  if cell_is b p.1 p.2 BLACK || cell_is b p.1 p.2 WHITE then 1 else 0.

(** The sum of [f] over a list of positions. *)
Definition sumOver (f : Z * Z → Z) (l : list (Z * Z)) : Z :=
  foldl (λ acc p, acc + f p) 0 l.





(** The direction in which [p] lies from [(row, col)]. *)
Definition dirOf (row col : Z) (p : Z * Z) : Z * Z :=
  (Z.sgn (p.1 - row), Z.sgn (p.2 - col)).

(** The entry of [countStones] for [player]. *)
Definition stonesOf (b : Board) (player : Z) : Z :=
  let '(black, white) := Game.countStones b in
  if player =? BLACK then black else white.

(** 1 when the cell at [p] holds [v], else 0. *)
Definition holds (b : Board) (v : Z) (p : Z * Z) : Z :=
  if cell_is b p.1 p.2 v then 1 else 0.

(** * Properties *)

(** ** Board access *)

Lemma cell_Some_nonneg (b : Board) r c x : cell b r c = Some x → 0 ≤ r ∧ 0 ≤ c.
Proof.
  unfold cell. destruct (0 <=? r) eqn:Hr, (0 <=? c) eqn:Hc; simpl; try discriminate.
  intros _. lia.
Qed.

Lemma cell_set_cell_eq (b : Board) r c v x :
  cell b r c = Some x → cell (set_cell b r c v) r c = Some v.
Proof.
  intros H. destruct (cell_Some_nonneg _ _ _ _ H) as [Hr Hc].
  revert H. unfold cell, set_cell.
  replace ((0 <=? r) && (0 <=? c)) with true by (symmetry; apply andb_true_iff; lia).
  rewrite list_lookup_alter_eq.
  destruct (b !! Z.to_nat r) as [line|]; simpl; [|discriminate].
  intros H. apply list_lookup_insert_eq. eapply lookup_lt_Some, H.
Qed.

Lemma cell_set_cell_ne (b : Board) r c v r' c' :
  (r', c') ≠ (r, c) →
  cell (set_cell b r c v) r' c' = cell b r' c'.
Proof.
  intros Hne. unfold cell, set_cell.
  destruct ((0 <=? r) && (0 <=? c)) eqn:Hrc; [|reflexivity].
  apply andb_true_iff in Hrc as [Hr Hc].
  destruct ((0 <=? r') && (0 <=? c')) eqn:Hpos; [|reflexivity].
  apply andb_true_iff in Hpos as [Hr' Hc'].
  destruct (decide (Z.to_nat r = Z.to_nat r')) as [Heq|Hneq].
  - rewrite <- Heq, list_lookup_alter_eq.
    destruct (b !! Z.to_nat r) as [line|]; simpl; [|reflexivity].
    apply list_lookup_insert_ne. intros Hcc. apply Hne. f_equal; lia.
  - rewrite list_lookup_alter_ne by done. reflexivity.
Qed.

Lemma cell_is_set_cell_ne (b : Board) r c v r' c' w :
  (r', c') ≠ (r, c) →
  cell_is (set_cell b r c v) r' c' w = cell_is b r' c' w.
Proof. intros. unfold cell_is. by rewrite cell_set_cell_ne. Qed.

Lemma cell_is_true (b : Board) r c v : cell_is b r c v = true ↔ cell b r c = Some v.
Proof.
  unfold cell_is. destruct (cell b r c) as [x|]; [|split; discriminate].
  rewrite Z.eqb_eq. split; congruence.
Qed.

Lemma wf_board_set_cell b r c v : wf_board b → wf_board (set_cell b r c v).
Proof.
  intros [Hl Hrows]. unfold set_cell. destruct (_ && _); [|done]. split.
  - by rewrite length_alter.
  - apply Forall_alter; [done|]. intros line _ Hline. by rewrite length_insert.
Qed.

Lemma wf_board_cell b r c :
  wf_board b → 0 ≤ r < 8 → 0 ≤ c < 8 → is_Some (cell b r c).
Proof.
  intros [Hl Hrows] Hr Hc. unfold cell.
  replace ((0 <=? r) && (0 <=? c)) with true by (symmetry; apply andb_true_iff; lia).
  destruct (lookup_lt_is_Some_2 b (Z.to_nat r)) as [line Hline]; [lia|].
  rewrite Hline. simpl. apply lookup_lt_is_Some_2.
  rewrite Forall_lookup in Hrows. rewrite (Hrows _ _ Hline). lia.
Qed.

Lemma wf_board_cell_valid b r c x :
  wf_board b → cell b r c = Some x → 0 ≤ r < 8 ∧ 0 ≤ c < 8.
Proof.
  intros [Hl Hrows] H. destruct (cell_Some_nonneg _ _ _ _ H) as [Hr Hc].
  revert H. unfold cell.
  replace ((0 <=? r) && (0 <=? c)) with true by (symmetry; apply andb_true_iff; lia).
  destruct (b !! Z.to_nat r) as [line|] eqn:Hline; simpl; [|discriminate].
  intros H. rewrite Forall_lookup in Hrows.
  assert (length line = 8%nat) by (eapply Hrows; eauto).
  apply lookup_lt_Some in Hline, H. lia.
Qed.

(** ** The scanning loops end

    A scan that still satisfies its loop condition after [n] iterations has
    made [n] steps, all from cells on the board. *)

Lemma scan_running n b opp dr dc r c temp t r' c' :
  Game.scan n b opp dr dc r c temp = (t, r', c') →
  Game.isValidPosition r' c' && cell_is b r' c' opp = true →
  r' = r + Z.of_nat n * dr ∧ c' = c + Z.of_nat n * dc ∧
  (n ≠ O → Game.isValidPosition r c = true).
Proof.
  revert r c temp. induction n as [|n IH]; intros r c temp; simpl.
  - intros [= _ <- <-] _. repeat split; [lia..|done].
  - destruct (Game.isValidPosition r c && cell_is b r c opp) eqn:Hcond.
    + intros Hscan Hend. destruct (IH _ _ _ Hscan Hend) as (-> & -> & _).
      apply andb_true_iff in Hcond as [Hv _]. repeat split; [lia..|done].
    + intros [= _ <- <-] Hend. congruence.
Qed.

Lemma valid_bounds r c :
  Game.isValidPosition r c = true ↔ 0 ≤ r < 8 ∧ 0 ≤ c < 8.
Proof.
  unfold Game.isValidPosition, BOARD_SIZE.
  rewrite !andb_true_iff, !Z.leb_le, !Z.ltb_lt. lia.
Qed.

Lemma direction_steps dr dc :
  (dr, dc) ∈ Game.directions → (dr ≠ 0 ∨ dc ≠ 0) ∧ -1 ≤ dr ≤ 1 ∧ -1 ≤ dc ≤ 1.
Proof.
  unfold Game.directions. rewrite !elem_of_cons, elem_of_nil.
  intros H. repeat destruct H as [H|H]; try done; injection H as -> ->; lia.
Qed.

(** With [scan_fuel] the loop of [getFlips] leaves through its test: the
    loop condition is false where the scan stops. *)
Lemma scan_exit b opp dr dc r c temp t r' c' :
  (dr, dc) ∈ Game.directions →
  Game.scan scan_fuel b opp dr dc r c temp = (t, r', c') →
  Game.isValidPosition r' c' && cell_is b r' c' opp = false.
Proof.
  intros Hdir Hscan.
  destruct (Game.isValidPosition r' c' && cell_is b r' c' opp) eqn:Hend; [|done].
  destruct (scan_running _ _ _ _ _ _ _ _ _ _ _ Hscan Hend) as (Hr & Hc & Hstart).
  apply andb_true_iff in Hend as [Hv _].
  apply valid_bounds in Hv. specialize (Hstart ltac:(done)).
  apply valid_bounds in Hstart. apply direction_steps in Hdir.
  unfold scan_fuel, BOARD_SIZE in *. simpl in *. lia.
Qed.

(** More fuel changes nothing once the loop has left through its test. *)
Lemma scan_more_fuel n k b opp dr dc r c temp t r' c' :
  Game.scan n b opp dr dc r c temp = (t, r', c') →
  Game.isValidPosition r' c' && cell_is b r' c' opp = false →
  Game.scan (n + k) b opp dr dc r c temp = (t, r', c').
Proof.
  revert r c temp. induction n as [|n IH]; intros r c temp; simpl.
  - intros [= <- <- <-] Hend. destruct k; simpl; [done|]. by rewrite Hend.
  - destruct (Game.isValidPosition r c && cell_is b r c opp) eqn:Hcond; [by apply IH|].
    by intros [= <- <- <-] _.
Qed.

(** The cells a scan collects are on the board and hold [opp]. *)
Lemma scan_collects n b opp dr dc r c temp t r' c' :
  Game.scan n b opp dr dc r c temp = (t, r', c') →
  ∃ run, t = temp ++ run ∧
    Forall (λ p, Game.isValidPosition p.1 p.2 = true ∧ cell_is b p.1 p.2 opp = true) run.
Proof.
  revert r c temp. induction n as [|n IH]; intros r c temp; simpl.
  - intros [= <- _ _]. exists []. by rewrite app_nil_r.
  - destruct (Game.isValidPosition r c && cell_is b r c opp) eqn:Hcond.
    + intros Hscan. destruct (IH _ _ _ Hscan) as (run & -> & Hrun).
      exists ((r, c) :: run). rewrite <- app_assoc. split; [done|].
      apply andb_true_iff in Hcond. by constructor.
    + intros [= <- _ _]. exists []. by rewrite app_nil_r.
Qed.

(** The two copies of the loop are the same function. *)
Lemma scan_same n b opp dr dc r c temp :
  AI.scan n b opp dr dc r c temp = Game.scan n b opp dr dc r c temp.
Proof.
  revert r c temp. induction n as [|n IH]; intros r c temp; simpl; [done|].
  change (AI.isValidPosition r c) with (Game.isValidPosition r c).
  destruct (Game.isValidPosition r c && cell_is b r c opp); [apply IH|done].
Qed.

(** The loop of [canPlaceStone] stops where the loop of [getFlips] stops. *)
Lemma scanOpponent_stop n b opp dr dc r c h temp h' r' c' :
  AI.scanOpponent n b opp dr dc r c h = (h', r', c') →
  ∃ t, Game.scan n b opp dr dc r c temp = (t, r', c').
Proof.
  revert r c h temp. induction n as [|n IH]; intros r c h temp; simpl.
  - intros [= _ <- <-]. by eexists.
  - change (AI.isValidPosition r c) with (Game.isValidPosition r c).
    destruct (Game.isValidPosition r c && cell_is b r c opp); [apply IH|].
    intros [= _ <- <-]. by eexists.
Qed.

Lemma scanOpponent_exit b opp dr dc r c h h' r' c' :
  (dr, dc) ∈ AI.directions →
  AI.scanOpponent scan_fuel b opp dr dc r c h = (h', r', c') →
  AI.isValidPosition r' c' && cell_is b r' c' opp = false.
Proof.
  intros Hdir Hscan.
  destruct (scanOpponent_stop _ _ _ _ _ _ _ _ [] _ _ _ Hscan) as [t Ht].
  eapply scan_exit; eauto.
Qed.

(** ** Folds *)

Lemma foldl_ext {A B} (f g : A → B → A) (l : list B) (a : A) :
  (∀ a x, f a x = g a x) → foldl f a l = foldl g a l.
Proof.
  intros Hfg. revert a. induction l as [|x l IH]; intros a; simpl; [done|].
  by rewrite Hfg, IH.
Qed.

(** Two loops run in step keep a relation between their states. *)
Lemma foldl_rel {A A' B} (R : A → A' → Prop) (f : A → B → A) (g : A' → B → A')
    (l : list B) (a : A) (a' : A') :
  R a a' → (∀ a a' x, x ∈ l → R a a' → R (f a x) (g a' x)) →
  R (foldl f a l) (foldl g a' l).
Proof.
  revert a a'. induction l as [|x l IH]; intros a a' Ha Hstep; simpl; [done|].
  apply IH.
  - apply Hstep; [left|done].
  - intros ? ? y Hy. apply Hstep. by right.
Qed.

Lemma foldl_pairs {A} (f : A → Z → Z → A) (rows cols : list Z) (a : A) :
  foldl (λ acc r, foldl (λ acc c, f acc r c) acc cols) a rows
  = foldl (λ acc p, f acc p.1 p.2) a (r ← rows; (λ c, (r, c)) <$> cols).
Proof.
  revert a. induction rows as [|r rows IH]; intros a; simpl; [done|].
  rewrite foldl_app, <- IH. f_equal.
  clear IH. revert a. induction cols as [|c cols IHc]; intros a; simpl; [done|].
  apply IHc.
Qed.

(** Two nested loops visit [allPositions]. *)
Lemma foldl_nested {A} (f : A → Z → Z → A) (a : A) :
  foldl (λ acc r, foldl (λ acc c, f acc r c) acc indices) a indices
  = foldl (λ acc p, f acc p.1 p.2) a allPositions.
Proof. apply foldl_pairs. Qed.

(** A loop that pushes onto an array is a filter-map. *)
Lemma foldl_push {A B} (g : B → option A) (l : list B) (a : list A) :
  foldl (λ acc x, match g x with Some y => acc ++ [y] | None => acc end) a l
  = a ++ omap g l.
Proof.
  revert a. induction l as [|x l IH]; intros a; simpl.
  - by rewrite app_nil_r.
  - rewrite IH. destruct (g x); [by rewrite <- app_assoc|done].
Qed.

(** ** The flip scanners *)

(** [OthelloGame.getFlips] returns the empty list when the target cell is
    not Empty. *)
Lemma game_getFlips_occupied (b : Board) (row col player : Z) :
  cell_is b row col EMPTY = false → Game.getFlips b row col player = [].
Proof. intros H. unfold Game.getFlips. by rewrite H. Qed.

(** C4 fails for [OthelloAI.getFlips], which has no test of the target cell:
    on the opening board with a black disc already at (2,3), the cell is
    occupied and the scanner still returns the run [(3,3)]. *)
Lemma ai_getFlips_occupied_nonempty :
  cell (set_cell Game.newBoard 2 3 BLACK) 2 3 = Some BLACK ∧
  cell_is (set_cell Game.newBoard 2 3 BLACK) 2 3 EMPTY = false ∧
  AI.getFlips (set_cell Game.newBoard 2 3 BLACK) 2 3 BLACK = [(3, 3)] ∧
  AI.getFlips (set_cell Game.newBoard 2 3 BLACK) 2 3 BLACK ≠ [].
Proof. repeat split; try (vm_compute; reflexivity). vm_compute. discriminate. Qed.

(** The two flip scanners compute the same list for a side on an Empty
    cell. *)
Lemma getFlips_same (b : Board) (row col player : Z) :
  is_side player → cell_is b row col EMPTY = true →
  AI.getFlips b row col player = Game.getFlips b row col player.
Proof.
  intros Hside Hempty. unfold AI.getFlips, Game.getFlips. rewrite Hempty. simpl negb.
  cbv iota.
  assert ((if player =? WHITE then BLACK else WHITE)
          = (if player =? BLACK then WHITE else BLACK)) as ->
    by (destruct Hside as [-> | ->]; reflexivity).
  apply foldl_ext. intros acc [dr dc]. by rewrite scan_same.
Qed.

(** C10: for a side (Black or White) and an Empty target cell the flip list
    of the AI module's [getFlips] is the flip list of the game module's
    [getFlips], position by position. *)
Theorem getFlips_agree (b : Board) (row col player : Z) :
  is_side player → cell_is b row col EMPTY = true →
  AI.getFlips b row col player = Game.getFlips b row col player.
Proof. apply getFlips_same. Qed.

Lemma getFlips_agree_witness :
  is_side BLACK ∧ cell_is Game.newBoard 2 3 EMPTY = true ∧
  AI.getFlips Game.newBoard 2 3 BLACK = Game.getFlips Game.newBoard 2 3 BLACK.
Proof.
  split; [by left|]. split; [reflexivity|].
  apply (getFlips_agree Game.newBoard 2 3 BLACK); [by left|reflexivity].
Defined.

(** Where a scan stops: some steps along its direction from where it
    started. *)
Lemma scan_end n b opp dr dc r c temp t r' c' :
  Game.scan n b opp dr dc r c temp = (t, r', c') →
  ∃ k : nat, r' = r + Z.of_nat k * dr ∧ c' = c + Z.of_nat k * dc.
Proof.
  revert r c temp. induction n as [|n IH]; intros r c temp; simpl.
  - intros [= _ <- <-]. exists O. lia.
  - destruct (Game.isValidPosition r c && cell_is b r c opp).
    + intros Hscan. destruct (IH _ _ _ Hscan) as (k & -> & ->). exists (S k). lia.
    + intros [= _ <- <-]. exists O. lia.
Qed.

(** A scan that never steps on [(row, col)] does not see what that cell
    holds. *)
Lemma scan_ignores n b row col v opp dr dc r c temp :
  (∀ i : nat, (r + Z.of_nat i * dr, c + Z.of_nat i * dc) ≠ (row, col)) →
  Game.scan n (set_cell b row col v) opp dr dc r c temp
  = Game.scan n b opp dr dc r c temp.
Proof.
  revert r c temp. induction n as [|n IH]; intros r c temp Hoff; simpl; [done|].
  rewrite cell_is_set_cell_ne.
  2:{ intros Heq. apply (Hoff O). rewrite <- Heq. f_equal; lia. }
  destruct (Game.isValidPosition r c && cell_is b r c opp); [|done].
  apply IH. intros i Heq. apply (Hoff (S i)). rewrite <- Heq. f_equal; lia.
Qed.

Lemma ray_off_origin row col dr dc (i : nat) :
  (dr, dc) ∈ Game.directions →
  (row + dr + Z.of_nat i * dr, col + dc + Z.of_nat i * dc) ≠ (row, col).
Proof. intros Hdir%direction_steps [= Hr Hc]. nia. Qed.

(** [OthelloAI.getFlips] never reads the target cell: its result is the same
    whatever that cell holds. *)
Lemma ai_getFlips_ignores_target b row col player v :
  AI.getFlips (set_cell b row col v) row col player = AI.getFlips b row col player.
Proof.
  unfold AI.getFlips.
  apply (foldl_rel (λ x y : list (Z * Z), x = y)); [done|].
  intros acc ? [dr dc] Hdir <-.
  rewrite (scan_same _ b), (scan_same _ (set_cell b row col v)).
  rewrite scan_ignores by (intros i; by apply ray_off_origin).
  destruct (Game.scan _ _ _ _ _ _ _ _) as [[t r] c] eqn:Hscan.
  apply scan_end in Hscan as (k & -> & ->).
  rewrite cell_is_set_cell_ne by (by apply ray_off_origin). done.
Qed.

(** On a legal move the trial move of the search leaves the board that
    [makeMove] leaves. *)
Lemma makeTestMove_makeMove b row col player :
  is_side player → cell_is b row col EMPTY = true →
  Game.getFlips b row col player ≠ [] →
  Game.makeMove b row col player = (true, AI.makeTestMove b row col player).
Proof.
  intros Hside Hempty Hflips. unfold Game.makeMove, AI.makeTestMove, Game.flipAll.
  rewrite Hempty. simpl.
  rewrite ai_getFlips_ignores_target, getFlips_same by done.
  destruct (Game.getFlips b row col player); [done|]. done.
Qed.

(** C4, as the code has it: when the target cell is not Empty, the game
    module's [getFlips] returns the empty list; the AI module's [getFlips]
    has no such test and returns the same runs whatever the target cell
    holds. *)
Theorem getFlips_occupied_cell (b : Board) (row col player : Z) :
  cell_is b row col EMPTY = false →
  Game.getFlips b row col player = [] ∧
  ∀ v, AI.getFlips (set_cell b row col v) row col player = AI.getFlips b row col player.
Proof.
  intros Hocc. split; [by apply game_getFlips_occupied|].
  intros v. apply ai_getFlips_ignores_target.
Qed.

Lemma getFlips_occupied_cell_witness :
  cell_is Game.newBoard 3 3 EMPTY = false ∧
  Game.getFlips Game.newBoard 3 3 BLACK = [] ∧
  ∀ v, AI.getFlips (set_cell Game.newBoard 3 3 v) 3 3 BLACK
       = AI.getFlips Game.newBoard 3 3 BLACK.
Proof.
  split; [reflexivity|].
  apply (getFlips_occupied_cell Game.newBoard 3 3 BLACK). reflexivity.
Defined.

(** ** Rejected moves *)

(** C7: when the target cell is occupied, or Empty with an empty flip list,
    [makeMove] returns [false] and the store, hence every cell of the
    board, is as before the call. *)
Theorem makeMove_rejects (s : Store.store) (board : Store.boardRef) (row col player : Z) :
  cell_is (Store.contents s board) row col EMPTY = false ∨
  (cell_is (Store.contents s board) row col EMPTY = true ∧
   Game.getFlips (Store.contents s board) row col player = []) →
  Store.makeMove s board row col player = (false, s).
Proof.
  unfold Store.makeMove. intros [Hocc | [Hempty Hnone]].
  - by rewrite Hocc.
  - by rewrite Hempty, Hnone.
Qed.

Lemma makeMove_rejects_witness :
  (cell_is (Store.contents (Store.alloc Game.newBoard).1 (Store.alloc Game.newBoard).2)
     0 0 EMPTY = true ∧
   Game.getFlips (Store.contents (Store.alloc Game.newBoard).1 (Store.alloc Game.newBoard).2)
     0 0 BLACK = []) ∧
  Store.makeMove (Store.alloc Game.newBoard).1 (Store.alloc Game.newBoard).2 0 0 BLACK
  = (false, (Store.alloc Game.newBoard).1).
Proof.
  split; [split; vm_compute; reflexivity|].
  apply makeMove_rejects. right. split; vm_compute; reflexivity.
Defined.

Lemma game_makeMove_rejects (b : Board) (row col player : Z) :
  cell_is b row col EMPTY = false ∨ Game.getFlips b row col player = [] →
  Game.makeMove b row col player = (false, b).
Proof.
  unfold Game.makeMove. intros [Hocc | Hnone].
  - by rewrite Hocc.
  - rewrite Hnone. by destruct (negb _).
Qed.

(** ** The opening position *)

(** C9: on the board [newGame] builds (White on (3,3) and (4,4), Black on
    (3,4) and (4,3), the rest Empty) Black has exactly four moves, each
    flipping one disc, each one diagonal step away from a cell of the center
    cluster. *)
Theorem opening_moves :
  Game.newBoard =
    [ [0; 0; 0; 0; 0; 0; 0; 0];
      [0; 0; 0; 0; 0; 0; 0; 0];
      [0; 0; 0; 0; 0; 0; 0; 0];
      [0; 0; 0; WHITE; BLACK; 0; 0; 0];
      [0; 0; 0; BLACK; WHITE; 0; 0; 0];
      [0; 0; 0; 0; 0; 0; 0; 0];
      [0; 0; 0; 0; 0; 0; 0; 0];
      [0; 0; 0; 0; 0; 0; 0; 0] ] ∧
  Game.getValidMoves Game.newBoard BLACK =
    [mkMove 2 3 1; mkMove 3 2 1; mkMove 4 5 1; mkMove 5 4 1] ∧
  len (Game.getValidMoves Game.newBoard BLACK) = 4 ∧
  Forall (λ m, flips m = 1 ∧
               existsb (diagonallyAdjacent (row m, col m)) centerCluster = true)
         (Game.getValidMoves Game.newBoard BLACK).
Proof.
  assert (Game.getValidMoves Game.newBoard BLACK =
    [mkMove 2 3 1; mkMove 3 2 1; mkMove 4 5 1; mkMove 5 4 1]) as Hmoves
    by (vm_compute; reflexivity).
  split; [vm_compute; reflexivity|]. split; [done|]. rewrite Hmoves.
  split; [reflexivity|]. repeat constructor.
Qed.

(** ** A side without moves inside the search *)

(** One level of [minimax]. *)
Lemma minimax_unfold depth b maximizing alpha beta player :
  AI.minimax (S depth) b maximizing alpha beta player =
  let currentPlayer :=
    if maximizing then player else (if player =? WHITE then BLACK else WHITE) in
  let validMoves := AI.getValidMovesForBoard b currentPlayer in
  if len validMoves =? 0 then
    if len (AI.getValidMovesForBoard b (if player =? WHITE then BLACK else WHITE)) =? 0
    then Fin (AI.evaluateBoard b player)
    else AI.minimax depth b (negb maximizing) alpha beta player
  else if maximizing then
    AI.maxLoop (λ move alpha,
        AI.minimax depth
          (AI.makeTestMove (AI.copyBoard b) (row move) (col move) currentPlayer)
          false alpha beta player)
      validMoves NegInf alpha beta
  else
    AI.minLoop (λ move beta,
        AI.minimax depth
          (AI.makeTestMove (AI.copyBoard b) (row move) (col move) currentPlayer)
          true alpha beta player)
      validMoves PosInf alpha beta.
Proof. reflexivity. Qed.

(** At a maximizing node whose side has no move, the search ends with the
    evaluation when the other side has no move either and passes
    otherwise. *)
Lemma minimax_stuck_maximizing depth b alpha beta player :
  AI.getValidMovesForBoard b player = [] →
  AI.minimax (S depth) b true alpha beta player =
    if len (AI.getValidMovesForBoard b (if player =? WHITE then BLACK else WHITE)) =? 0
    then Fin (AI.evaluateBoard b player)
    else AI.minimax depth b false alpha beta player.
Proof. intros H. rewrite minimax_unfold. cbv zeta. by rewrite H. Qed.

(** At a minimizing node whose side has no move, the second test looks at
    the same side again: the search ends with the evaluation whether or not
    the root side can move. *)
Lemma minimax_stuck_minimizing depth b alpha beta player :
  AI.getValidMovesForBoard b (if player =? WHITE then BLACK else WHITE) = [] →
  AI.minimax (S depth) b false alpha beta player = Fin (AI.evaluateBoard b player).
Proof. intros H. rewrite minimax_unfold. cbv zeta. by rewrite !H. Qed.

(** C1 at a minimizing node: on [passBoard] with root side Black and depth
    3, as [selectMinimaxMove] calls the search, White (to move) has no move
    and Black has one, yet the search returns the evaluation of the board,
    225, where the pass, the search at depth 2 with Black to move and the
    same window, returns 190. *)
Theorem minimax_min_node_ignores_pass :
  AI.getValidMovesForBoard passBoard WHITE = [] ∧
  AI.getValidMovesForBoard passBoard BLACK = [mkMove 0 2 1] ∧
  AI.minimax 3 passBoard false NegInf PosInf BLACK = Fin (AI.evaluateBoard passBoard BLACK) ∧
  AI.minimax 3 passBoard false NegInf PosInf BLACK = Fin 225 ∧
  AI.minimax 2 passBoard true NegInf PosInf BLACK = Fin 190.
Proof. repeat split; vm_compute; reflexivity. Qed.

(** ** Enumeration of the legal moves *)

Lemma game_getValidMoves_omap b player :
  Game.getValidMoves b player
  = omap (moveAt b (λ r c, Game.getFlips b r c player)) allPositions.
Proof.
  unfold Game.getValidMoves.
  rewrite (foldl_nested (λ moves row col,
    if cell_is b row col EMPTY then
      if 0 <? len (Game.getFlips b row col player)
      then moves ++ [mkMove row col (len (Game.getFlips b row col player))]
      else moves
    else moves)).
  rewrite <- (app_nil_l (omap _ _)), <- foldl_push.
  apply foldl_ext. intros moves [r c]. unfold moveAt. simpl.
  by repeat case_match.
Qed.

Lemma ai_getValidMoves_omap b player :
  AI.getValidMovesForBoard b player
  = omap (moveAt b (λ r c, AI.getFlips b r c player)) allPositions.
Proof.
  unfold AI.getValidMovesForBoard.
  rewrite (foldl_nested (λ moves row col,
    if cell_is b row col EMPTY then
      if 0 <? len (AI.getFlips b row col player)
      then moves ++ [mkMove row col (len (AI.getFlips b row col player))]
      else moves
    else moves)).
  rewrite <- (app_nil_l (omap _ _)), <- foldl_push.
  apply foldl_ext. intros moves [r c]. unfold moveAt. simpl.
  by repeat case_match.
Qed.

Lemma moveAt_Some b flipsOf p m :
  moveAt b flipsOf p = Some m →
  (row m, col m) = p ∧ cell b (row m) (col m) = Some EMPTY ∧
  flipsOf (row m) (col m) ≠ [] ∧ flips m = len (flipsOf (row m) (col m)).
Proof.
  unfold moveAt. destruct p as [r c]. simpl.
  destruct (cell_is b r c EMPTY) eqn:Hempty; [|discriminate].
  destruct (0 <? len (flipsOf r c)) eqn:Hlen; [|discriminate].
  intros [= <-]. simpl. repeat split.
  - by apply cell_is_true.
  - intros Hnil. rewrite Hnil in Hlen. discriminate.
Qed.

Lemma omap_positions_sublist b flipsOf (l : list (Z * Z)) :
  ((λ m, (row m, col m)) <$> omap (moveAt b flipsOf) l) `sublist_of` l.
Proof.
  induction l as [|p l IH]; simpl; [constructor|].
  destruct (moveAt b flipsOf p) as [m|] eqn:Hm; simpl.
  - apply moveAt_Some in Hm as [<- _]. by constructor.
  - by constructor.
Qed.

(** [allPositions] lists the 64 cells by rising row, and by rising column
    inside a row. *)
Lemma allPositions_row_major :
  (λ p, 8 * p.1 + p.2) <$> allPositions = seqZ 0 64.
Proof. vm_compute. reflexivity. Qed.

(** C8: every move [getValidMoves] (and the AI module's
    [getValidMovesForBoard]) returns targets an Empty cell, has a non-empty
    flip list for its position and side, and carries the length of that
    list; the positions of the moves are a subsequence of the row-major list
    of all positions. *)
Theorem legalMoves_consistent (b : Board) (player : Z) :
  (∀ m, m ∈ Game.getValidMoves b player →
        cell b (row m) (col m) = Some EMPTY ∧
        Game.getFlips b (row m) (col m) player ≠ [] ∧
        flips m = len (Game.getFlips b (row m) (col m) player)) ∧
  ((λ m, (row m, col m)) <$> Game.getValidMoves b player) `sublist_of` allPositions ∧
  (∀ m, m ∈ AI.getValidMovesForBoard b player →
        cell b (row m) (col m) = Some EMPTY ∧
        AI.getFlips b (row m) (col m) player ≠ [] ∧
        flips m = len (AI.getFlips b (row m) (col m) player)) ∧
  ((λ m, (row m, col m)) <$> AI.getValidMovesForBoard b player) `sublist_of` allPositions.
Proof.
  rewrite game_getValidMoves_omap, ai_getValidMoves_omap.
  repeat split; try apply omap_positions_sublist;
    apply list_elem_of_omap in H as (p & _ & Hm);
    apply moveAt_Some in Hm; tauto.
Qed.

(** ** The evaluator *)

Lemma cell_is_exclusive b r c v w : v ≠ w → cell_is b r c v = true → cell_is b r c w = false.
Proof.
  unfold cell_is. destruct (cell b r c) as [x|]; [|done].
  rewrite Z.eqb_eq, Z.eqb_neq. congruence.
Qed.

Lemma positional_swap b :
  AI.positional b WHITE BLACK =
  (- (AI.positional b BLACK WHITE).1.1,
   (AI.positional b BLACK WHITE).2,
   (AI.positional b BLACK WHITE).1.2).
Proof.
  unfold AI.positional.
  apply (foldl_rel (λ x y : Z * Z * Z, y = (- x.1.1, x.2, x.1.2))); [done|].
  intros a a' r _ Ha.
  apply (foldl_rel (λ x y : Z * Z * Z, y = (- x.1.1, x.2, x.1.2))); [done|].
  clear a a' Ha. intros [[s p'] o] a' c _ ->. simpl.
  destruct (cell_is b r c BLACK) eqn:Hb, (cell_is b r c WHITE) eqn:Hw; simpl.
  - rewrite (cell_is_exclusive b r c BLACK WHITE) in Hw; done.
  - repeat f_equal; lia.
  - repeat f_equal; lia.
  - done.
Qed.

(** C5: the score for Black is the negation of the score for White, on
    every board. *)
Theorem evaluate_antisymmetric (b : Board) :
  AI.evaluateBoard b BLACK = - AI.evaluateBoard b WHITE.
Proof.
  unfold AI.evaluateBoard.
  change (if BLACK =? WHITE then BLACK else WHITE) with WHITE.
  change (if WHITE =? WHITE then BLACK else WHITE) with BLACK.
  pose proof (positional_swap b) as Hswap.
  destruct (AI.positional b BLACK WHITE) as [[s p'] o].
  cbn [fst snd] in Hswap. rewrite Hswap. cbv beta iota zeta.
  rewrite (Z.add_comm o p').
  set (sB := if AI.phaseBelow (p' + o) then _ else _).
  set (sW := if AI.phaseBelow (p' + o) then _ else _).
  assert (sB = - sW) as Hs.
  { unfold sB, sW. destruct (AI.phaseAbove (p' + o)), (AI.phaseBelow (p' + o)); lia. }
  clearbody sB sW.
  apply (foldl_rel (λ x y, x = - y)); [done|].
  intros x y [r c] _ ->.
  destruct (cell_is b r c BLACK) eqn:Hb, (cell_is b r c WHITE) eqn:Hw; try lia.
  rewrite (cell_is_exclusive b r c BLACK WHITE) in Hw; done.
Qed.

(** ** Boards in the store *)

Lemma contents_write s (board : Store.boardRef) r c v :
  NoDup board →
  Store.contents (Store.write s board r c v) board
  = set_cell (Store.contents s board) r c v.
Proof.
  intros Hnodup. unfold Store.write, set_cell.
  destruct ((0 <=? r) && (0 <=? c)); [|done].
  apply list_eq. intros i. unfold Store.contents.
  destruct (decide (i = Z.to_nat r)) as [->|Hne].
  - rewrite list_lookup_alter_eq, !list_lookup_fmap.
    destruct (board !! Z.to_nat r) as [l|]; simpl; [|done].
    rewrite lookup_alter_eq. by destruct (s !! l).
  - rewrite list_lookup_alter_ne by done. rewrite !list_lookup_fmap.
    destruct (board !! Z.to_nat r) as [l|] eqn:Hl; [|done].
    destruct (board !! i) as [l'|] eqn:Hl'; simpl; [|done].
    rewrite lookup_alter_ne; [done|].
    intros ->. apply Hne. eapply NoDup_lookup; eauto.
Qed.

Lemma contents_write_other s (board other : Store.boardRef) r c v :
  (∀ l, l ∈ other → l ∉ board) →
  Store.contents (Store.write s board r c v) other = Store.contents s other.
Proof.
  intros Hdisj. unfold Store.contents, Store.write.
  destruct ((0 <=? r) && (0 <=? c)); [|done].
  destruct (board !! Z.to_nat r) as [l|] eqn:Hl; [|done].
  apply list_fmap_ext. intros i l' Hl'.
  rewrite lookup_alter_ne; [done|].
  intros ->. eapply Hdisj; eapply list_elem_of_lookup_2; eauto.
Qed.

Lemma contents_flips s (board : Store.boardRef) fl player :
  NoDup board →
  Store.contents (foldl (λ s '(r, c), Store.write s board r c player) s fl) board
  = foldl (λ b '(r, c), set_cell b r c player) (Store.contents s board) fl.
Proof.
  intros Hnodup. revert s. induction fl as [|[r c] fl IH]; intros s; simpl; [done|].
  by rewrite IH, contents_write.
Qed.

Lemma contents_flips_other s (board other : Store.boardRef) fl player :
  (∀ l, l ∈ other → l ∉ board) →
  Store.contents (foldl (λ s '(r, c), Store.write s board r c player) s fl) other
  = Store.contents s other.
Proof.
  intros Hdisj. revert s. induction fl as [|[r c] fl IH]; intros s; simpl; [done|].
  by rewrite IH, contents_write_other.
Qed.

(** The store version of [makeMove] computes the contents version. *)
Lemma makeMove_contents s (board : Store.boardRef) row col player :
  NoDup board →
  Game.makeMove (Store.contents s board) row col player
  = ((Store.makeMove s board row col player).1,
     Store.contents (Store.makeMove s board row col player).2 board).
Proof.
  intros Hnodup. unfold Game.makeMove, Store.makeMove, Game.flipAll.
  destruct (negb _); [done|].
  destruct (len _ =? 0); [done|]. simpl.
  by rewrite contents_flips, contents_write.
Qed.

Lemma makeMove_other s (board other : Store.boardRef) row col player :
  (∀ l, l ∈ other → l ∉ board) →
  Store.contents (Store.makeMove s board row col player).2 other
  = Store.contents s other.
Proof.
  intros Hdisj. unfold Store.makeMove.
  destruct (negb _); [done|].
  destruct (len _ =? 0); [done|]. simpl.
  by rewrite contents_flips_other, contents_write_other.
Qed.

(** The store version of [makeTestMove] computes the contents version. *)
Lemma makeTestMove_contents s (board : Store.boardRef) row col player :
  NoDup board →
  Store.contents (Store.makeTestMove s board row col player) board
  = AI.makeTestMove (Store.contents s board) row col player.
Proof.
  intros Hnodup. unfold AI.makeTestMove, Store.makeTestMove.
  by rewrite contents_flips, !contents_write.
Qed.

Lemma makeTestMove_other s (board other : Store.boardRef) row col player :
  (∀ l, l ∈ other → l ∉ board) →
  Store.contents (Store.makeTestMove s board row col player) other
  = Store.contents s other.
Proof.
  intros Hdisj. unfold Store.makeTestMove.
  by rewrite contents_flips_other, contents_write_other.
Qed.

(** [copyBoard] leaves the store it found as it was, and returns a board
    of new, pairwise different rows with the same contents. *)
Lemma copyBoard_spec s (board : Store.boardRef) s' copy :
  (∀ l, l ∈ board → l ∈ dom s) →
  Store.copyBoard s board = (s', copy) →
  s ⊆ s' ∧ NoDup copy ∧ (∀ l, l ∈ copy → l ∉ dom s) ∧
  Store.contents s' copy = Store.contents s board.
Proof.
  revert s s' copy. induction board as [|l rest IH]; intros s s' copy Halloc; simpl.
  - intros [= <- <-]. split; [done|]. split; [constructor|]. split; [|done].
    intros l Hl. by apply elem_of_nil in Hl.
  - set (l' := fresh (dom s)).
    assert (l' ∉ dom s) as Hfresh by apply is_fresh.
    destruct (Store.copyBoard (<[l' := default [] (s !! l)]> s) rest) as [s1 out] eqn:Hcopy.
    intros [= <- <-].
    apply IH in Hcopy as (Hsub & Hnodup & Hnew & Hcont).
    2:{ intros x Hx. rewrite dom_insert. apply elem_of_union_r, Halloc. by right. }
    assert (s ⊆ s1) as Hss.
    { etrans; [|exact Hsub]. apply insert_subseteq. by apply not_elem_of_dom. }
    split; [done|]. split; [|split].
    + constructor; [|done]. intros Hin. apply Hnew in Hin.
      apply Hin. rewrite dom_insert. apply elem_of_union_l. by apply elem_of_singleton.
    + intros x [->|Hx]%elem_of_cons; [done|].
      intros Hd. apply (Hnew x Hx). rewrite dom_insert. by apply elem_of_union_r.
    + unfold Store.contents in *. simpl. f_equal.
      * rewrite (lookup_weaken (<[l' := default [] (s !! l)]> s) s1 l'
                   (default [] (s !! l))); [done| |done].
        apply lookup_insert_eq.
      * etrans; [exact Hcont|]. apply list_fmap_ext. intros i x Hx.
        rewrite lookup_insert_ne; [done|]. intros ->. apply Hfresh, Halloc.
        right. eapply list_elem_of_lookup_2; eauto.
Qed.

Lemma contents_weaken s s' (board : Store.boardRef) :
  s ⊆ s' → (∀ l, l ∈ board → l ∈ dom s) →
  Store.contents s' board = Store.contents s board.
Proof.
  intros Hsub Halloc. unfold Store.contents. apply list_fmap_ext. intros i l Hl.
  assert (l ∈ dom s) as [x Hx]%elem_of_dom
    by (apply Halloc; eapply list_elem_of_lookup_2; eauto).
  by rewrite Hx, (lookup_weaken _ _ _ _ Hx Hsub).
Qed.

Lemma copy_disjoint s (board : Store.boardRef) s' copy :
  (∀ l, l ∈ board → l ∈ dom s) →
  Store.copyBoard s board = (s', copy) →
  (∀ l, l ∈ copy → l ∉ board) ∧ (∀ l, l ∈ board → l ∉ copy).
Proof.
  intros Halloc Hcopy.
  destruct (copyBoard_spec _ _ _ _ Halloc Hcopy) as (_ & _ & Hnew & _).
  split; intros l Hl Hl'; eapply Hnew; eauto.
Qed.

(** C3, as the code has it: [makeMove] writes the placement and the flips
    into the board it is called on; what keeps its cells is a copy taken
    with [copyBoard] before the call, as [handleCellClick] takes one for the
    history.  After the call the board holds the result of the move and the
    saved copy holds, cell for cell, what the board held before. *)
Theorem makeMove_in_place_copy_kept s (board : Store.boardRef) (row col player : Z) :
  NoDup board → (∀ l, l ∈ board → l ∈ dom s) →
  let '(s1, saved) := Store.copyBoard s board in
  let '(ok, s2) := Store.makeMove s1 board row col player in
  Game.makeMove (Store.contents s board) row col player = (ok, Store.contents s2 board) ∧
  Store.contents s2 saved = Store.contents s board.
Proof.
  intros Hnodup Halloc.
  destruct (Store.copyBoard s board) as [s1 saved] eqn:Hcopy.
  destruct (copyBoard_spec _ _ _ _ Halloc Hcopy) as (Hsub & _ & _ & Hsaved).
  destruct (copy_disjoint _ _ _ _ Halloc Hcopy) as [Hdisj _].
  pose proof (makeMove_contents s1 board row col player Hnodup) as Hmove.
  pose proof (makeMove_other s1 board saved row col player Hdisj) as Hother.
  destruct (Store.makeMove s1 board row col player) as [ok s2]. simpl in *.
  rewrite (contents_weaken s s1 board Hsub Halloc) in Hmove.
  split; [done|]. by rewrite Hother.
Qed.

Lemma alloc_newBoard_allocated l :
  l ∈ (Store.alloc Game.newBoard).2 → l ∈ dom (Store.alloc Game.newBoard).1.
Proof.
  intros Hl. apply elem_of_dom.
  change ((Store.alloc Game.newBoard).2) with (seq 0 8) in Hl.
  apply elem_of_seq in Hl as [_ Hl].
  do 8 (destruct l as [|l]; [vm_compute; eauto|]). lia.
Qed.

Lemma makeMove_in_place_copy_kept_witness :
  let '(s, board) := Store.alloc Game.newBoard in
  let '(s1, saved) := Store.copyBoard s board in
  let '(ok, s2) := Store.makeMove s1 board 2 3 BLACK in
  Game.makeMove (Store.contents s board) 2 3 BLACK = (ok, Store.contents s2 board) ∧
  Store.contents s2 saved = Store.contents s board.
Proof.
  apply (makeMove_in_place_copy_kept (Store.alloc Game.newBoard).1
           (Store.alloc Game.newBoard).2 2 3 BLACK).
  - apply NoDup_seq.
  - apply alloc_newBoard_allocated.
Defined.

(** C3 fails on the code: [makeMove] returns a boolean and changes the board
    it is called on.  On the opening board the legal move of Black to (2,3)
    leaves, in that same board, a black disc on (2,3), which was Empty, and
    on (3,3), which was White. *)
Lemma makeMove_overwrites_board :
  let '(s, board) := Store.alloc Game.newBoard in
  let '(ok, s') := Store.makeMove s board 2 3 BLACK in
  mkMove 2 3 1 ∈ Game.getValidMoves (Store.contents s board) BLACK ∧
  ok = true ∧
  cell (Store.contents s board) 2 3 = Some EMPTY ∧
  cell (Store.contents s' board) 2 3 = Some BLACK ∧
  cell (Store.contents s board) 3 3 = Some WHITE ∧
  cell (Store.contents s' board) 3 3 = Some BLACK ∧
  Store.contents s' board ≠ Store.contents s board.
Proof.
  vm_compute. repeat split; [left|discriminate].
Qed.

(** The search makes every trial move on a board of its own: after
    [copyBoard] and [makeTestMove] on the copy, the copy holds the move
    and the board the search was given holds what it held. *)
Lemma trial_board_is_private s (board : Store.boardRef) (row col player : Z) :
  (∀ l, l ∈ board → l ∈ dom s) →
  let '(s1, testBoard) := Store.copyBoard s board in
  let s2 := Store.makeTestMove s1 testBoard row col player in
  Store.contents s2 testBoard
    = AI.makeTestMove (AI.copyBoard (Store.contents s board)) row col player ∧
  Store.contents s2 board = Store.contents s board.
Proof.
  intros Halloc.
  destruct (Store.copyBoard s board) as [s1 testBoard] eqn:Hcopy.
  destruct (copyBoard_spec _ _ _ _ Halloc Hcopy) as (Hsub & Hnodup & _ & Hsaved).
  destruct (copy_disjoint _ _ _ _ Halloc Hcopy) as [_ Hdisj].
  simpl. split.
  - rewrite makeTestMove_contents by done. unfold AI.copyBoard.
    by rewrite list_fmap_id, Hsaved.
  - rewrite makeTestMove_other by done. by apply contents_weaken.
Qed.

(** ** Disc counts *)

(** Every flipped cell is on the board and holds a disc of the opponent. *)
Lemma game_getFlips_cells b row col player :
  Forall (λ p, Game.isValidPosition p.1 p.2 = true ∧
               cell_is b p.1 p.2 (if player =? BLACK then WHITE else BLACK) = true)
         (Game.getFlips b row col player).
Proof.
  unfold Game.getFlips. destruct (negb _); [constructor|].
  set (P := λ p : Z * Z, Game.isValidPosition p.1 p.2 = true ∧
              cell_is b p.1 p.2 (if player =? BLACK then WHITE else BLACK) = true).
  enough (∀ dirs acc, Forall P acc →
    Forall P (foldl (λ flips '(dr, dc),
      let '(temp, r, c) :=
        Game.scan scan_fuel b (if player =? BLACK then WHITE else BLACK)
          dr dc (row + dr) (col + dc) [] in
      if Game.isValidPosition r c && cell_is b r c player && (0 <? len temp)
      then flips ++ temp else flips) acc dirs)) as Hgen
    by (apply Hgen; constructor).
  intros dirs. induction dirs as [|[dr dc] dirs IH]; intros acc Hacc; cbn [foldl]; [done|].
  apply IH.
  destruct (Game.scan _ _ _ _ _ _ _ _) as [[t r] c] eqn:Hscan.
  destruct (_ && _ && _); [|done].
  apply scan_collects in Hscan as (run & -> & Hrun).
  apply Forall_app. split; [done|exact Hrun].
Qed.

Lemma set_cell_is_Some b r c v r' c' :
  is_Some (cell b r' c') → is_Some (cell (set_cell b r c v) r' c').
Proof.
  intros [x Hx]. destruct (decide ((r', c') = (r, c))) as [[= -> ->]|Hne].
  - rewrite (cell_set_cell_eq _ _ _ _ _ Hx). by eexists.
  - rewrite cell_set_cell_ne by done. by eexists.
Qed.

Lemma flipAll_cell b fl player r c :
  Forall (λ p, is_Some (cell b p.1 p.2)) fl →
  cell (Game.flipAll b fl player) r c
  = if decide ((r, c) ∈ fl) then Some player else cell b r c.
Proof.
  unfold Game.flipAll. revert b.
  induction fl as [|[r0 c0] fl IH]; intros b Hfl; cbn [foldl].
  - destruct (decide ((r, c) ∈ [])) as [Hin|_]; [by apply elem_of_nil in Hin|done].
  - apply Forall_cons in Hfl as [[x Hx] Hfl]. cbn [fst snd] in Hx.
    rewrite IH.
    2:{ eapply Forall_impl; [exact Hfl|]. intros [r' c'] Hs. by apply set_cell_is_Some. }
    destruct (decide ((r, c) ∈ fl)) as [Hin|Hnin].
    + rewrite decide_True; [done|]. by right.
    + destruct (decide ((r, c) = (r0, c0))) as [[= -> ->]|Hne].
      * rewrite decide_True by left. by eapply cell_set_cell_eq.
      * rewrite decide_False.
        -- by apply cell_set_cell_ne.
        -- intros [?|?]%elem_of_cons; done.
Qed.

Lemma sumOver_shift (f : Z * Z → Z) l a :
  foldl (λ acc p, acc + f p) a l = a + sumOver f l.
Proof.
  unfold sumOver. revert a. induction l as [|p l IH]; intros a; simpl; [lia|].
  rewrite (IH (a + f p)), (IH (0 + f p)). lia.
Qed.

Lemma sumOver_add (f' f g : Z * Z → Z) l :
  (∀ p, p ∈ l → f' p = f p + g p) → sumOver f' l = sumOver f l + sumOver g l.
Proof.
  induction l as [|p l IH]; intros Hfg; [done|].
  unfold sumOver. simpl. rewrite !sumOver_shift.
  rewrite IH by (intros q Hq; apply Hfg; by right).
  rewrite (Hfg p) by left. lia.
Qed.

Lemma countStones_positions b :
  Game.countStones b
  = foldl (λ (acc : Z * Z) p,
             if cell_is b p.1 p.2 BLACK then (acc.1 + 1, acc.2)
             else if cell_is b p.1 p.2 WHITE then (acc.1, acc.2 + 1)
             else acc) (0, 0) allPositions.
Proof.
  unfold Game.countStones.
  etrans; [|apply (foldl_nested (λ (acc : Z * Z) r c,
             if cell_is b r c BLACK then (acc.1 + 1, acc.2)
             else if cell_is b r c WHITE then (acc.1, acc.2 + 1)
             else acc))].
  apply foldl_ext. intros acc r. apply foldl_ext. intros [bl wh] c. simpl.
  by repeat case_match.
Qed.

Lemma totalStones_sum b : totalStones b = sumOver (counted b) allPositions.
Proof.
  unfold totalStones, sumOver. rewrite countStones_positions.
  enough (∀ x n, x.1 + x.2 = n →
            (let '(black, white) := x in black + white) = n) as Hpair.
  { apply Hpair. apply (foldl_rel (λ (x : Z * Z) (n : Z), x.1 + x.2 = n)); [done|].
    intros [bl wh] n [r c] _ <-. unfold counted. simpl.
    destruct (cell_is b r c BLACK), (cell_is b r c WHITE); simpl; lia. }
  by intros [bl wh] n.
Qed.

Lemma allPositions_valid r c :
  (r, c) ∈ allPositions ↔ Game.isValidPosition r c = true.
Proof.
  rewrite valid_bounds. unfold allPositions, indices, BOARD_SIZE.
  rewrite list_elem_of_bind. split.
  - intros (r' & [c' [[= -> ->] Hc]]%list_elem_of_fmap & Hr).
    apply elem_of_seqZ in Hc, Hr. lia.
  - intros [Hr Hc]. exists r. split; [|apply elem_of_seqZ; lia].
    apply list_elem_of_fmap. exists c. split; [done|apply elem_of_seqZ; lia].
Qed.

Lemma sumOver_indicator t :
  t ∈ allPositions →
  sumOver (λ p, if decide (p = t) then 1 else 0) allPositions = 1.
Proof.
  revert t. apply Forall_forall.
  apply (bool_decide_unpack _). vm_compute. exact I.
Qed.

(** A successful [makeMove] raises the total number of discs by exactly
    one, the disc placed; the flipped cells held discs before and hold discs
    after. *)
Lemma makeMove_total (b b' : Board) (row col player : Z) :
  wf_board b → is_side player →
  Game.makeMove b row col player = (true, b') →
  totalStones b' = totalStones b + 1.
Proof.
  intros Hwf Hside. unfold Game.makeMove.
  destruct (cell_is b row col EMPTY) eqn:Hempty; simpl; [|discriminate].
  destruct (len _ =? 0); [discriminate|]. intros [= <-].
  apply cell_is_true in Hempty.
  destruct (cell_Some_nonneg _ _ _ _ Hempty) as [Hr Hc].
  destruct (wf_board_cell_valid _ _ _ _ Hwf Hempty) as [Hr8 Hc8].
  rewrite !totalStones_sum.
  rewrite (sumOver_add _ (counted b) (λ p, if decide (p = (row, col)) then 1 else 0)).
  { rewrite sumOver_indicator; [done|]. apply allPositions_valid, valid_bounds. lia. }
  intros [r c] _.
  pose proof (game_getFlips_cells b row col player) as Hcells.
  set (opp := if player =? BLACK then WHITE else BLACK) in Hcells.
  assert (∀ q, q ∈ Game.getFlips b row col player →
               cell b q.1 q.2 = Some opp) as Hopp.
  { intros q Hq. rewrite Forall_forall in Hcells. by apply cell_is_true, Hcells. }
  unfold counted, cell_is. simpl. rewrite flipAll_cell.
  2:{ apply Forall_forall. intros [r' c'] Hq. apply set_cell_is_Some.
      rewrite (Hopp _ Hq). by eexists. }
  destruct (decide ((r, c) ∈ Game.getFlips b row col player)) as [Hin|Hnin].
  - pose proof (Hopp _ Hin) as Hq. simpl in Hq. rewrite Hq.
    rewrite decide_False.
    2:{ intros [= -> ->]. rewrite Hempty in Hq. injection Hq as Hq.
        subst opp. destruct Hside as [-> | ->]; discriminate. }
    subst opp. destruct Hside as [-> | ->]; reflexivity.
  - destruct (decide ((r, c) = (row, col))) as [[= -> ->]|Hne].
    + rewrite (cell_set_cell_eq _ _ _ _ _ Hempty), Hempty.
      destruct Hside as [-> | ->]; reflexivity.
    + rewrite cell_set_cell_ne by done.
      destruct (cell b r c) as [x|]; [|done].
      destruct (_ || _); lia.
Qed.



(** The cells a scan collects lie one step apart along its direction. *)
Lemma scan_run n b opp dr dc r c temp t r' c' :
  Game.scan n b opp dr dc r c temp = (t, r', c') →
  ∃ k : nat,
    t = temp ++ ((λ i : nat, (r + Z.of_nat i * dr, c + Z.of_nat i * dc)) <$> seq 0 k).
Proof.
  revert r c temp. induction n as [|n IH]; intros r c temp; simpl.
  - intros [= <- _ _]. exists O. by rewrite app_nil_r.
  - destruct (Game.isValidPosition r c && cell_is b r c opp).
    + intros Hscan. destruct (IH _ _ _ Hscan) as (k & ->).
      exists (S k). rewrite <- app_assoc. f_equal. simpl. f_equal.
      * f_equal; lia.
      * rewrite <- fmap_S_seq, <- list_fmap_compose.
        apply list_fmap_ext. intros i j _. simpl. f_equal; lia.
    + intros [= <- _ _]. exists O. by rewrite app_nil_r.
Qed.

Lemma run_NoDup dr dc r c k :
  (dr, dc) ∈ Game.directions →
  NoDup ((λ i : nat, (r + Z.of_nat i * dr, c + Z.of_nat i * dc)) <$> seq 0 k).
Proof.
  intros Hdir. apply direction_steps in Hdir as [Hnz _].
  apply NoDup_fmap_2; [|apply NoDup_seq].
  intros i j [= Hr Hc]. destruct Hnz; nia.
Qed.

Lemma run_dirOf row col dr dc k p :
  (dr, dc) ∈ Game.directions →
  p ∈ (λ i : nat, (row + dr + Z.of_nat i * dr, col + dc + Z.of_nat i * dc)) <$> seq 0 k →
  dirOf row col p = (dr, dc).
Proof.
  intros Hdir (i & -> & _)%list_elem_of_fmap. unfold dirOf. simpl.
  apply direction_steps in Hdir as (_ & Hr & Hc).
  f_equal; nia.
Qed.

Lemma game_getFlips_NoDup b row col player : NoDup (Game.getFlips b row col player).
Proof.
  unfold Game.getFlips. destruct (negb _); [constructor|].
  set (opp := if player =? BLACK then WHITE else BLACK).
  enough (∀ dirs acc,
    NoDup dirs → (∀ d, d ∈ dirs → d ∈ Game.directions) →
    NoDup acc → (∀ p, p ∈ acc → dirOf row col p ∉ dirs) →
    NoDup (foldl (λ flips '(dr, dc),
      let '(temp, r, c) :=
        Game.scan scan_fuel b opp dr dc (row + dr) (col + dc) [] in
      if Game.isValidPosition r c && cell_is b r c player && (0 <? len temp)
      then flips ++ temp else flips) acc dirs)) as Hgen.
  { apply Hgen; [|done|constructor|by intros p Hp%elem_of_nil].
    unfold Game.directions. apply (bool_decide_unpack _). vm_compute. exact I. }
  intros dirs. induction dirs as [|[dr dc] dirs IH]; intros acc Hdirs Hsub Hacc Hold;
    cbn [foldl]; [done|].
  apply NoDup_cons in Hdirs as [Hd Hdirs].
  assert ((dr, dc) ∈ Game.directions) as Hdir by (apply Hsub; left).
  assert (∀ p, p ∈ acc → dirOf row col p ∉ dirs) as Hold'
    by (intros p Hp Hin; apply (Hold p Hp); by right).
  apply IH; [done|intros d Hin; apply Hsub; by right|..].
  - destruct (Game.scan _ _ _ _ _ _ _ _) as [[t r] c] eqn:Hscan.
    destruct (_ && _ && _); [|done].
    apply scan_run in Hscan as (k & ->). simpl.
    apply NoDup_app. split; [done|]. split; [|by apply run_NoDup].
    intros p Hp Hrun. apply (Hold p Hp).
    rewrite (run_dirOf _ _ _ _ _ _ Hdir Hrun). left.
  - destruct (Game.scan _ _ _ _ _ _ _ _) as [[t r] c] eqn:Hscan.
    destruct (_ && _ && _); [|done].
    apply scan_run in Hscan as (k & ->). simpl.
    intros p [Hp|Hrun]%elem_of_app; [by apply Hold'|].
    by rewrite (run_dirOf _ _ _ _ _ _ Hdir Hrun).
Qed.

Lemma stonesOf_sum b player :
  is_side player → stonesOf b player = sumOver (holds b player) allPositions.
Proof.
  intros Hside. unfold stonesOf, sumOver. rewrite countStones_positions.
  enough (∀ (x : Z * Z) n, (if player =? BLACK then x.1 else x.2) = n →
            (let '(black, white) := x in if player =? BLACK then black else white) = n)
    as Hpair.
  { apply Hpair.
    apply (foldl_rel (λ (x : Z * Z) (n : Z), (if player =? BLACK then x.1 else x.2) = n));
      [by destruct (player =? BLACK)|].
    intros [bl wh] n [r c] _ <-. unfold holds. simpl.
    destruct Hside as [-> | ->]; simpl.
    - destruct (cell_is b r c BLACK), (cell_is b r c WHITE); simpl; lia.
    - destruct (cell_is b r c BLACK) eqn:Hb, (cell_is b r c WHITE) eqn:Hw; simpl; try lia.
      rewrite (cell_is_exclusive b r c BLACK WHITE) in Hw; done. }
  by intros [bl wh] n.
Qed.

Lemma sumOver_member (fl : list (Z * Z)) :
  NoDup fl → (∀ p, p ∈ fl → p ∈ allPositions) →
  sumOver (λ p, if decide (p ∈ fl) then 1 else 0) allPositions = len fl.
Proof.
  induction fl as [|x fl IH]; intros Hnodup Hsub.
  - unfold len. simpl. generalize allPositions. intros l.
    unfold sumOver.
    enough (∀ a, foldl (λ acc p, acc + (if decide (p ∈ []) then 1 else 0)) a l = a) as ->
      by done.
    induction l as [|p l IHl]; intros a; cbn [foldl]; [done|].
    rewrite decide_False by apply not_elem_of_nil. rewrite IHl. lia.
  - apply NoDup_cons in Hnodup as [Hx Hnodup].
    rewrite (sumOver_add _ (λ p, if decide (p = x) then 1 else 0)
                           (λ p, if decide (p ∈ fl) then 1 else 0)).
    + rewrite sumOver_indicator by (apply Hsub; left).
      rewrite IH; [|done|intros p Hp; apply Hsub; by right].
      unfold len. simpl length. lia.
    + intros p _. destruct (decide (p = x)) as [->|Hne].
      * rewrite decide_True by left. by rewrite decide_False.
      * destruct (decide (p ∈ fl)) as [Hin|Hnin].
        -- rewrite decide_True; [done|by right].
        -- rewrite decide_False; [done|]. by intros [?|?]%elem_of_cons.
Qed.

(** After a successful [makeMove] the flipped cells and the target cell hold
    the mover's disc and every other cell holds what it held. *)
Lemma makeMove_cells b b' row col player r c :
  Game.makeMove b row col player = (true, b') →
  cell b row col = Some EMPTY ∧
  cell b' r c =
    if decide ((r, c) ∈ Game.getFlips b row col player) then Some player
    else if decide ((r, c) = (row, col)) then Some player
    else cell b r c.
Proof.
  unfold Game.makeMove.
  destruct (cell_is b row col EMPTY) eqn:Hempty; simpl; [|discriminate].
  destruct (len _ =? 0); [discriminate|]. intros [= <-].
  apply cell_is_true in Hempty. split; [done|].
  destruct (cell_Some_nonneg _ _ _ _ Hempty) as [Hr Hc].
  pose proof (game_getFlips_cells b row col player) as Hcells.
  rewrite flipAll_cell.
  2:{ apply Forall_forall. intros [r' c'] Hq. apply set_cell_is_Some.
      rewrite Forall_forall in Hcells. destruct (Hcells _ Hq) as [_ Hopp].
      apply cell_is_true in Hopp. cbn [fst snd] in *. rewrite Hopp. by eexists. }
  destruct (decide ((r, c) ∈ _)); [done|].
  destruct (decide ((r, c) = (row, col))) as [[= -> ->]|Hne].
  - by eapply cell_set_cell_eq.
  - by apply cell_set_cell_ne.
Qed.

Lemma totalStones_split b : totalStones b = stonesOf b BLACK + stonesOf b WHITE.
Proof. unfold totalStones, stonesOf. by destruct (Game.countStones b). Qed.

(** The mover's count rises by the disc placed and the discs flipped. *)
Lemma makeMove_mover (b b' : Board) (row col player : Z) :
  wf_board b → is_side player →
  Game.makeMove b row col player = (true, b') →
  stonesOf b' player = stonesOf b player + (1 + len (Game.getFlips b row col player)).
Proof.
  intros Hwf Hside Hmove.
  pose proof (λ r c, makeMove_cells b b' row col player r c Hmove) as Hcells.
  destruct (Hcells 0 0) as [Hempty _].
  destruct (wf_board_cell_valid _ _ _ _ Hwf Hempty) as [Hr8 Hc8].
  pose proof (game_getFlips_cells b row col player) as Hflips.
  rewrite Forall_forall in Hflips.
  rewrite !stonesOf_sum by done.
  rewrite (sumOver_add _ (λ p, holds b player p + (if decide (p = (row, col)) then 1 else 0))
             (λ p, if decide (p ∈ Game.getFlips b row col player) then 1 else 0)).
  - rewrite (sumOver_add _ (holds b player) (λ p, if decide (p = (row, col)) then 1 else 0))
      by done.
    rewrite sumOver_indicator by (apply allPositions_valid, valid_bounds; lia).
    rewrite sumOver_member; [lia|apply game_getFlips_NoDup|].
    intros [r c] Hp. apply allPositions_valid. by apply (Hflips _ Hp).
  - intros [r c] _. unfold holds, cell_is. simpl.
    destruct (Hcells r c) as [_ ->].
    destruct (decide ((r, c) ∈ _)) as [Hin|Hnin].
    + destruct (Hflips _ Hin) as [_ Hopp]. apply cell_is_true in Hopp.
      simpl in Hopp. rewrite Hopp.
      rewrite decide_False
        by (intros [= -> ->]; rewrite Hempty in Hopp;
            destruct Hside as [-> | ->]; discriminate).
      rewrite Z.eqb_refl. destruct Hside as [-> | ->]; reflexivity.
    + destruct (decide ((r, c) = (row, col))) as [[= -> ->]|Hne].
      * rewrite Hempty, Z.eqb_refl. destruct Hside as [-> | ->]; reflexivity.
      * lia.
Qed.

(** C2, as the code has it: a legal move can be made, and making it raises
    the total number of discs by exactly one, the disc placed.  The count of
    the mover rises by [1 + flips] and the count of the other side falls by
    [flips]. *)
Theorem makeMove_disc_counts (b : Board) (m : Move) (player : Z) :
  wf_board b → is_side player → m ∈ Game.getValidMoves b player →
  ∃ b', Game.makeMove b (row m) (col m) player = (true, b') ∧
        totalStones b' = totalStones b + 1 ∧
        stonesOf b' player = stonesOf b player + (1 + flips m) ∧
        stonesOf b' (if player =? BLACK then WHITE else BLACK)
          = stonesOf b (if player =? BLACK then WHITE else BLACK) - flips m.
Proof.
  intros Hwf Hside Hm.
  rewrite game_getValidMoves_omap in Hm.
  apply list_elem_of_omap in Hm as (p & _ & Hm).
  apply moveAt_Some in Hm as (_ & Hempty & Hflips & Hcount).
  destruct (Game.makeMove b (row m) (col m) player) as [ok b'] eqn:Hmove.
  assert (ok = true) as ->.
  { revert Hmove. unfold Game.makeMove.
    apply cell_is_true in Hempty. rewrite Hempty. simpl.
    destruct (len _ =? 0) eqn:Hlen; [|by intros [= <- _]].
    apply Z.eqb_eq in Hlen. unfold len in Hlen.
    destruct (Game.getFlips b (row m) (col m) player); [done|simpl in Hlen; lia]. }
  exists b'. split; [done|].
  pose proof (makeMove_total _ _ _ _ _ Hwf Hside Hmove) as Htotal.
  pose proof (makeMove_mover _ _ _ _ _ Hwf Hside Hmove) as Hmover.
  rewrite <- Hcount in Hmover. repeat split; [done..|].
  rewrite !totalStones_split in Htotal.
  destruct Hside as [-> | ->]; simpl; lia.
Qed.

Lemma makeMove_disc_counts_witness :
  ∃ b', Game.makeMove Game.newBoard 2 3 BLACK = (true, b') ∧
        totalStones b' = totalStones Game.newBoard + 1 ∧
        stonesOf b' BLACK = stonesOf Game.newBoard BLACK + (1 + 1) ∧
        stonesOf b' WHITE = stonesOf Game.newBoard WHITE - 1.
Proof.
  apply (makeMove_disc_counts Game.newBoard (mkMove 2 3 1) BLACK).
  - split; [reflexivity|]. repeat constructor.
  - by left.
  - vm_compute. left.
Defined.

(** C2 fails as stated: Black's opening move to (2,3) is legal with
    [flips = 1]; the board holds 4 discs before and 5 after, not
    [4 + (1 + 1)]. *)
Lemma makeMove_total_not_by_flips :
  mkMove 2 3 1 ∈ Game.getValidMoves Game.newBoard BLACK ∧
  (Game.makeMove Game.newBoard 2 3 BLACK).1 = true ∧
  totalStones Game.newBoard = 4 ∧
  totalStones (Game.makeMove Game.newBoard 2 3 BLACK).2 = 5 ∧
  totalStones (Game.makeMove Game.newBoard 2 3 BLACK).2
    ≠ totalStones Game.newBoard + (1 + flips (mkMove 2 3 1)).
Proof. vm_compute. repeat split; [left|discriminate]. Qed.

(** ** The order of the scores *)

















(** ** Pruning *)












